(** * tempswap: the hash-and-timeout lock ledger and its client wrappers

    Sources:
    - src/unnamed/part_000 : the ABI of the swap contract (its errors,
      events and function signatures);
    - src/frontend/src/lib/blockchain-context.js : the client wrappers
      [calculateLockId], [lockBuy], [lockSell], [unlock], [getLockValue].

    The Solidity bodies of the contract are not part of the sources: only its
    ABI is.  The bodies of the five operations and of [getLockValue] are
    therefore modelled from the spec, over the types the ABI fixes. *)

From Stdlib Require Import ZArith Lia Sorted.
From stdpp Require Import base gmap list strings.
Import ListNotations.

Open Scope Z_scope.

(** ** Solidity tight packing ([ethers.solidityPacked]) *)

(** One byte out of the low 8 bits of [z]. *)
Definition byte_of_Z (z : Z) : Byte.byte :=
  match Byte.of_N (Z.to_N (z mod 256)) with
  | Some b => b
  | None => Byte.x00
  end.

(** Little-endian [n]-byte encoding; the ABI's big-endian encoding is its
    reverse. *)
Fixpoint le_bytes (n : nat) (z : Z) : list Byte.byte :=
  match n with
  | O => []
  | S n' => byte_of_Z z :: le_bytes n' (z / 256)
  end.

Definition be_bytes (n : nat) (z : Z) : list Byte.byte := rev (le_bytes n z).

Fixpoint le_value (bs : list Byte.byte) : Z :=
  match bs with
  | [] => 0
  | b :: bs' => Z.of_N (Byte.to_N b) + 256 * le_value bs'
  end.

(** Range of an ABI value of [n] bytes. *)
Definition fits (n : nat) (z : Z) : bool :=
  (0 <=? z) && (z <? 2 ^ (8 * Z.of_nat n)).

(** [solidityPacked(["address","address","bytes32","uint256"], [a,c,h,t])]:
    20 + 20 + 32 + 32 bytes, no padding between the fields.  ethers throws
    (here: [None]) when a value does not fit its type. *)
Definition solidityPacked_aabu (a c h t : Z) : option (list Byte.byte) :=
  if fits 20 a && fits 20 c && fits 32 h && fits 32 t
  then Some (be_bytes 20 a ++ be_bytes 20 c ++ be_bytes 32 h ++ be_bytes 32 t)
  else None.

Section LockIds.

(** The keccak256 primitive, over byte strings, with a 32-byte result. *)
Variable keccak256 : list Byte.byte -> Z.

(** The lock identity of a tuple of well-typed (in-range) values: the hash
    of the packed tuple, as the spec's [H(assetContract ‖ creator ‖
    hashedSecret ‖ timeout)]. *)
Definition lockIdOf (token creator hashedSecret timeout : Z) : Z :=
  keccak256 (be_bytes 20 token ++ be_bytes 20 creator
             ++ be_bytes 32 hashedSecret ++ be_bytes 32 timeout).

(** blockchain-context.js, [calculateLockId]:
    [ethers.solidityPackedKeccak256(["address","address","bytes32","uint256"],
     [tokenAddress, creator, hashedSecret, timeout])]. *)
Definition calculateLockId (tokenAddress creator hashedSecret timeout : Z)
  : option Z :=
  match solidityPacked_aabu tokenAddress creator hashedSecret timeout with
  | Some bs => Some (keccak256 bs)
  | None => None
  end.

End LockIds.

(** ** The contract's interface (src/unnamed/part_000) *)

(** The six custom errors the ABI declares, with their arguments. *)
Inductive Error :=
| LockAlreadyExists (lockId : Z)
| LockNotFound (lockId : Z)
| LockNotTimedOut (lockId : Z)
| LockTimedOut (lockId : Z)
| TransferInFailed (token from value : Z)
| TransferOutFailed (token to value : Z).

Definition error_name (e : Error) : string :=
  match e with
  | LockAlreadyExists _ => "LockAlreadyExists"
  | LockNotFound _ => "LockNotFound"
  | LockNotTimedOut _ => "LockNotTimedOut"
  | LockTimedOut _ => "LockTimedOut"
  | TransferInFailed _ _ _ => "TransferInFailed"
  | TransferOutFailed _ _ _ => "TransferOutFailed"
  end.

Definition abi_error_names : list string :=
  ["LockAlreadyExists"; "LockNotFound"; "LockNotTimedOut"; "LockTimedOut";
   "TransferInFailed"; "TransferOutFailed"].

(** The lock id an error carries, for the four lock errors. *)
Definition error_lockId (e : Error) : option Z :=
  match e with
  | LockAlreadyExists i | LockNotFound i | LockNotTimedOut i
  | LockTimedOut i => Some i
  | _ => None
  end.

(** The (token, account, value) a transfer error carries. *)
Definition error_transfer (e : Error) : option (Z * Z * Z) :=
  match e with
  | TransferInFailed tk a v | TransferOutFailed tk a v => Some (tk, a, v)
  | _ => None
  end.

(** The five events the ABI declares, with their fields in ABI order. *)
Inductive Event :=
| DeclineEv (token creator recipient lockId : Z)
| LockBuyEv (token creator recipient hashedSecret timeout value
             sellAssetId sellPrice lockId : Z)
| LockSellEv (token creator recipient hashedSecret timeout value
              buyAssetId buyLockId : Z)
| RetrieveEv (token creator recipient lockId : Z)
| UnlockEv (token creator recipient lockId secret : Z).

Definition event_token (e : Event) : Z :=
  match e with
  | DeclineEv tk _ _ _ | LockBuyEv tk _ _ _ _ _ _ _ _
  | LockSellEv tk _ _ _ _ _ _ _ | RetrieveEv tk _ _ _
  | UnlockEv tk _ _ _ _ => tk
  end.

Definition event_creator (e : Event) : Z :=
  match e with
  | DeclineEv _ c _ _ | LockBuyEv _ c _ _ _ _ _ _ _
  | LockSellEv _ c _ _ _ _ _ _ | RetrieveEv _ c _ _
  | UnlockEv _ c _ _ _ => c
  end.

Definition event_recipient (e : Event) : Z :=
  match e with
  | DeclineEv _ _ r _ | LockBuyEv _ _ r _ _ _ _ _ _
  | LockSellEv _ _ r _ _ _ _ _ | RetrieveEv _ _ r _
  | UnlockEv _ _ r _ _ => r
  end.

(** The [lockId] field of an event, where the ABI declares one. *)
Definition event_lockId (e : Event) : option Z :=
  match e with
  | DeclineEv _ _ _ i | LockBuyEv _ _ _ _ _ _ _ _ i
  | RetrieveEv _ _ _ i | UnlockEv _ _ _ i _ => Some i
  | LockSellEv _ _ _ _ _ _ _ _ => None
  end.

Definition is_LockSell (e : Event) : bool :=
  match e with LockSellEv _ _ _ _ _ _ _ _ => true | _ => false end.

(** The state-changing functions of the ABI, with their inputs in ABI order
    (the caller is [msg.sender], not an input). *)
Inductive Call :=
| Decline (token creator hashedSecret timeout : Z)
| LockBuy (token recipient hashedSecret timeout value sellAssetId sellPrice : Z)
| LockSell (token recipient hashedSecret timeout value buyAssetId buyLockId : Z)
| Retrieve (token recipient hashedSecret timeout : Z)
| Unlock (token creator secret timeout : Z).

(** ** The lock ledger *)

(** The persisted lock record (spec, section 6). *)
Record Lock := mkLock {
  lk_token : Z;
  lk_creator : Z;
  lk_recipient : Z;
  lk_hashedSecret : Z;
  lk_timeout : Z;
  lk_value : Z
}.

(** A custody movement performed by the ledger. *)
Inductive Transfer :=
| PullIn (token from value : Z)
| PushOut (token to value : Z).

(** The ledger's state: the lock table, the custody movements it made and
    the records it emitted. *)
Record State := mkState {
  locks : gmap Z Lock;
  transfers : list Transfer;
  events : list Event
}.

(** The context of one call: block time, [msg.sender], and the outcome of
    the asset contract's pull and push primitives. *)
Record Env := mkEnv {
  now : Z;
  caller : Z;
  pull_ok : Z -> Z -> Z -> bool;
  push_ok : Z -> Z -> Z -> bool
}.

(** A call body: a state and error monad. *)
Definition M (A : Type) : Type := State -> Error + (A * State).

#[global] Instance M_ret : MRet M := fun A x s => inr (x, s).
#[global] Instance M_bind : MBind M := fun A B k m s =>
  match m s with inl e => inl e | inr (x, s') => k x s' end.
Definition throw {A} (e : Error) : M A := fun _ => inl e.
Definition get : M State := fun s => inr (s, s).
Definition put (s : State) : M unit := fun _ => inr (tt, s).

Definition require (b : bool) (e : Error) : M unit :=
  if b then mret tt else throw e.

Definition find_lock (id : Z) : M Lock :=
  s ← get;
  match locks s !! id with
  | Some l => mret l
  | None => throw (LockNotFound id)
  end.

Definition set_locks (f : gmap Z Lock -> gmap Z Lock) : M unit :=
  s ← get; put (mkState (f (locks s)) (transfers s) (events s)).

Definition emit (ev : Event) : M unit :=
  s ← get; put (mkState (locks s) (transfers s) (events s ++ [ev])).

Definition log_transfer (t : Transfer) : M unit :=
  s ← get; put (mkState (locks s) (transfers s ++ [t]) (events s)).

(** The transfer-safety wrapper: the pull and push primitives, each raising
    its transfer error on failure. *)
Definition transferIn (env : Env) (token from value : Z) : M unit :=
  require (pull_ok env token from value) (TransferInFailed token from value) ;;
  log_transfer (PullIn token from value).

Definition transferOut (env : Env) (token to value : Z) : M unit :=
  require (push_ok env token to value) (TransferOutFailed token to value) ;;
  log_transfer (PushOut token to value).

Section Ledger.

Variable keccak256 : list Byte.byte -> Z.

(** The commitment to a secret: the hash of its 32 bytes. *)
Definition hashSecret (secret : Z) : Z := keccak256 (be_bytes 32 secret).

Let lockId := lockIdOf keccak256.

(** Modelled from the spec: the body of the contract's creation (the
    Solidity source is missing; only its ABI is in src).  Section 4.1,
    Create-as-buy / Create-as-sell: derive the id with the caller as
    creator, reject an open id with [LockAlreadyExists], pull [value] into
    custody, store the lock, emit the creation record. *)
Definition create (env : Env) (token recipient hashedSecret timeout value : Z)
    (ev : Z -> Event) : M unit :=
  let id := lockId token (caller env) hashedSecret timeout in
  s ← get;
  require (bool_decide (locks s !! id = None)) (LockAlreadyExists id) ;;
  transferIn env token (caller env) value ;;
  set_locks (<[id := mkLock token (caller env) recipient hashedSecret
                            timeout value]>) ;;
  emit (ev id).

(** Modelled from the spec: the body of [unlock] (section 4.1, Unlock).
    The spec names no error of its own for a caller that is not the stored
    recipient; the model rejects it with [LockNotFound], as the lock the
    caller could claim does not exist. *)
Definition unlock_body (env : Env) (token creator secret timeout : Z)
    : M unit :=
  let id := lockId token creator (hashSecret secret) timeout in
  l ← find_lock id;
  require (now env <? timeout) (LockTimedOut id) ;;
  require (caller env =? lk_recipient l) (LockNotFound id) ;;
  transferOut env token (caller env) (lk_value l) ;;
  set_locks (delete id) ;;
  emit (UnlockEv token creator (caller env) id secret).

(** Modelled from the spec: the body of [retrieve] (section 4.1,
    Retrieve); the caller is the creator. *)
Definition retrieve_body (env : Env) (token recipient hashedSecret timeout : Z)
    : M unit :=
  let id := lockId token (caller env) hashedSecret timeout in
  l ← find_lock id;
  require (timeout <=? now env) (LockNotTimedOut id) ;;
  transferOut env token (caller env) (lk_value l) ;;
  set_locks (delete id) ;;
  emit (RetrieveEv token (caller env) recipient id).

(** Modelled from the spec: the body of [decline] (section 4.1, Decline);
    the caller is the recipient, the value goes back to [creator]. *)
Definition decline_body (env : Env) (token creator hashedSecret timeout : Z)
    : M unit :=
  let id := lockId token creator hashedSecret timeout in
  l ← find_lock id;
  require (now env <? timeout) (LockTimedOut id) ;;
  require (caller env =? lk_recipient l) (LockNotFound id) ;;
  transferOut env token creator (lk_value l) ;;
  set_locks (delete id) ;;
  emit (DeclineEv token creator (caller env) id).

Definition call_body (env : Env) (c : Call) : M unit :=
  match c with
  | LockBuy tk r h t v a p =>
      create env tk r h t v (LockBuyEv tk (caller env) r h t v a p)
  | LockSell tk r h t v a b =>
      create env tk r h t v (fun _ => LockSellEv tk (caller env) r h t v a b)
  | Unlock tk c sec t => unlock_body env tk c sec t
  | Retrieve tk r h t => retrieve_body env tk r h t
  | Decline tk c h t => decline_body env tk c h t
  end.

(** A transaction: the body runs; an error reverts every effect staged by
    the call and is returned to the caller. *)
Definition run (env : Env) (c : Call) (s : State) : State * option Error :=
  match call_body env c s with
  | inl e => (s, Some e)
  | inr (_, s') => (s', None)
  end.

(** The lock an operation addresses. *)
Definition target (env : Env) (c : Call) : Z :=
  match c with
  | LockBuy tk _ h t _ _ _ | LockSell tk _ h t _ _ _
  | Retrieve tk _ h t => lockId tk (caller env) h t
  | Unlock tk c sec t => lockId tk c (hashSecret sec) t
  | Decline tk c h t => lockId tk c h t
  end.

Definition is_resolution (c : Call) : bool :=
  match c with Unlock _ _ _ _ | Retrieve _ _ _ _ | Decline _ _ _ _ => true
             | _ => false end.

(** Modelled from the spec: [getLockValue] (section 4.1, GetLockValue; the
    ABI marks it [view]): the custodied value of an open lock, else the
    not-found condition. *)
Definition getLockValue (lockId : Z) : M Z :=
  l ← find_lock lockId; mret (lk_value l).

End Ledger.

(** ** Client wrappers (blockchain-context.js) *)

(** The completion of an awaited JavaScript call: a value, or a thrown
    exception (a rejected promise). *)
Inductive Completion (A : Type) :=
| Normal (x : A)
| Throw.
Arguments Normal {A} x.
Arguments Throw {A}.

Section ClientAmounts.

(** JavaScript numbers and the built-ins the wrappers apply to them.
    [js_BigInt] returns [None] where [BigInt] throws. *)
Variable Num : Type.
Variable num_mul : Num -> Num -> Num.
Variable million : Num.
Variable js_String : Num -> string.
Variable js_trim : string -> string.
Variable js_BigInt : string -> option Z.
Variable math_floor_Number : Num -> Num.

(** [lockSell], the computation of [valueWei]:
<<
    if (useRawValue) {
      value = value*1000000;
      valueWei = BigInt(String(value).trim());
    } else {
      value = value*1000000;
      valueWei = BigInt(String(value).trim());
    }
>> *)
Definition lockSell_valueWei (useRawValue : bool) (value : Num) : option Z :=
  if useRawValue then
    let value := num_mul value million in
    js_BigInt (js_trim (js_String value))
  else
    let value := num_mul value million in
    js_BigInt (js_trim (js_String value)).

(** [lockBuy], the computation of [valueWei]:
<<
    if (useRawValue) {
      valueWei = BigInt(String(value).trim());
    } else {
      value = value*1000000;
      valueWei = BigInt(String(value).trim());
    }
>> *)
Definition lockBuy_valueWei (useRawValue : bool) (value : Num) : option Z :=
  if useRawValue then js_BigInt (js_trim (js_String value))
  else
    let value := num_mul value million in
    js_BigInt (js_trim (js_String value)).

Definition ethers_ZeroHash : string :=
  "0x0000000000000000000000000000000000000000000000000000000000000000".

(** [buyAssetId && buyAssetId.startsWith('0x') ? buyAssetId : ethers.ZeroHash],
    with [None] for an absent (undefined or null) argument. *)
Definition format_bytes32_arg (x : option string) : string :=
  match x with
  | Some v => if String.prefix "0x" v then v else ethers_ZeroHash
  | None => ethers_ZeroHash
  end.

(** The arguments [lockSell] passes to [swapContract.lockSell]. *)
Record LockSellTx := mkLockSellTx {
  tx_token : string;
  tx_recipient : string;
  tx_hashedSecret : string;
  tx_timeout : Num;
  tx_value : Z;
  tx_buyAssetId : string;
  tx_buyLockId : string
}.

(** [lockSell]: the transaction it submits, or [None] where the
    conversion of [value] throws (the wrapper rethrows). *)
Definition lockSell_tx (tokenAddress recipient hashedSecret : string)
    (timeout value : Num) (buyAssetId buyLockId : option string)
    (useRawValue : bool) : option LockSellTx :=
  match lockSell_valueWei useRawValue value with
  | None => None
  | Some valueWei =>
      Some (mkLockSellTx tokenAddress recipient hashedSecret
              (math_floor_Number timeout) valueWei
              (format_bytes32_arg buyAssetId) (format_bytes32_arg buyLockId))
  end.

End ClientAmounts.

(** [getLockValue] of the client:
<<
    if (!swapContract) return "0";
    try {
      const value = await swapContract.getLockValue(lockId);
      return ethers.formatEther(value);
    } catch (error) { ...; return "0"; }
>>
    [swapContract] is the connected contract's [getLockValue] view, if any;
    [formatEther] is ethers' 18-decimal formatting of a bigint. *)
Definition client_getLockValue (swapContract : option (Z -> Completion Z))
    (formatEther : Z -> string) (lockId : Z) : Completion string :=
  match swapContract with
  | None => Normal "0"%string
  | Some getLockValue_call =>
      match getLockValue_call lockId with
      | Normal value => Normal (formatEther value)
      | Throw => Normal "0"%string
      end
  end.

(** The [getLockValue] view of the modelled ledger, as a contract call: a
    not-found rejection makes the awaited call throw. *)
Definition ledger_view (s : State)
    : Z -> Completion Z :=
  fun lockId =>
    match getLockValue lockId s with
    | inl _ => Throw
    | inr (v, _) => Normal v
    end.

(** The common shape of the three modelled resolutions, as the proofs
    unfold them. *)
Definition resolve_result (s : State) (id : Z) (time_ok : Z -> bool)
    (time_err : Error) (auth : Lock -> bool) (env : Env) (tk : Z)
    (payee : Lock -> Z) (ev : Event) : Error + (unit * State) :=
  match locks s !! id with
  | None => inl (LockNotFound id)
  | Some l =>
      if time_ok (now env) then
        if auth l then
          if push_ok env tk (payee l) (lk_value l) then
            inr (tt, mkState (delete id (locks s))
                       (transfers s ++ [PushOut tk (payee l) (lk_value l)])
                       (events s ++ [ev]))
          else inl (TransferOutFailed tk (payee l) (lk_value l))
        else inl (LockNotFound id)
      else inl time_err
  end.

(** The asset contract a call names. *)
Definition call_token (c : Call) : Z :=
  match c with
  | Decline tk _ _ _ | LockBuy tk _ _ _ _ _ _ | LockSell tk _ _ _ _ _ _
  | Retrieve tk _ _ _ | Unlock tk _ _ _ => tk
  end.

(** ** JavaScript string built-ins used by the wrappers *)

(** Strings are modelled as sequences of UTF-16 code units below 256 (one
    [ascii] each), so [.length] is the number of characters. *)

(** The white space [String.prototype.trim] strips, among those code units:
    TAB, LF, VT, FF, CR, SPACE and NO-BREAK SPACE. *)
Definition js_is_ws (c : Ascii.ascii) : bool :=
  let n := Ascii.nat_of_ascii c in
  (Nat.eqb n 9 || Nat.eqb n 10 || Nat.eqb n 11 || Nat.eqb n 12
   || Nat.eqb n 13 || Nat.eqb n 32 || Nat.eqb n 160)%bool.

Fixpoint drop_ws (l : list Ascii.ascii) : list Ascii.ascii :=
  match l with
  | [] => []
  | c :: l' => if js_is_ws c then drop_ws l' else l
  end.

(** [s.trim()]. *)
Definition js_trim_str (s : string) : string :=
  String.string_of_list_ascii
    (rev (drop_ws (rev (drop_ws (String.list_ascii_of_string s))))).

(** [s.toLowerCase()] on these code units: A-Z and the Latin-1 capitals
    U+00C0-U+00DE other than U+00D7 move up by 32. *)
Definition js_lower_char (c : Ascii.ascii) : Ascii.ascii :=
  let n := Ascii.nat_of_ascii c in
  if ((Nat.leb 65 n && Nat.leb n 90)
      || (Nat.leb 192 n && Nat.leb n 222 && negb (Nat.eqb n 215)))%bool
  then Ascii.ascii_of_nat (n + 32) else c.

Definition js_toLowerCase (s : string) : string :=
  String.string_of_list_ascii (map js_lower_char (String.list_ascii_of_string s)).

(** [s.includes(sub)]. *)
Fixpoint js_includes (s sub : string) : bool :=
  (String.prefix sub s ||
   match s with
   | EmptyString => false
   | String _ s' => js_includes s' sub
   end)%bool.

(** [ethers.toUtf8Bytes]: UTF-8 of code units below 256. *)
Definition utf8_of_char (c : Ascii.ascii) : list Byte.byte :=
  let n := Z.of_nat (Ascii.nat_of_ascii c) in
  if n <? 128 then [byte_of_Z n]
  else [byte_of_Z (192 + n / 64); byte_of_Z (128 + n mod 64)].

Definition toUtf8Bytes (s : string) : list Byte.byte :=
  flat_map utf8_of_char (String.list_ascii_of_string s).

(** The lower-case hex digit of a nibble. *)
Definition hex_digit (n : Z) : Ascii.ascii :=
  if n <? 10 then Ascii.ascii_of_nat (Z.to_nat (48 + n))
  else Ascii.ascii_of_nat (Z.to_nat (87 + n)).

Fixpoint hex_nibbles (k : nat) (z : Z) : list Ascii.ascii :=
  match k with
  | O => []
  | S k' => hex_nibbles k' (z / 16) ++ [hex_digit (z mod 16)]
  end.

(** The [0x]-prefixed 64-digit hex string of a 32-byte value, as
    [ethers.keccak256] returns its digest. *)
Definition hex32 (z : Z) : string :=
  ("0x" ++ String.string_of_list_ascii (hex_nibbles 64 z))%string.

(** lockBuy, the formatting of [sellAssetId]:
<<
      if (!sellAssetId || sellAssetId.trim() === '') {
        formattedSellAssetId = ethers.ZeroHash;
      } else if (sellAssetId.startsWith('0x') && sellAssetId.length === 66) {
        formattedSellAssetId = sellAssetId;
      } else {
        formattedSellAssetId = ethers.keccak256(ethers.toUtf8Bytes(sellAssetId));
      }
>>
    [None] is an absent (undefined or null) argument. *)
Definition format_sellAssetId (keccak256 : list Byte.byte -> Z)
    (sellAssetId : option string) : string :=
  match sellAssetId with
  | None => ethers_ZeroHash
  | Some v =>
      if String.eqb (js_trim_str v) "" then ethers_ZeroHash
      else if (String.prefix "0x" v && Nat.eqb (String.length v) 66)%bool
      then v
      else hex32 (keccak256 (toUtf8Bytes v))
  end.

(** ** Event relevance, receipts and event history (blockchain-context.js) *)

(** A JavaScript string that may be absent; it is truthy when present and
    non-empty. *)
Definition js_truthy_str (o : option string) : bool :=
  match o with Some v => negb (String.eqb v "") | None => false end.

(** [listenForEvents], the helper [isEventForCurrentAccount]:
<<
      if (!account) return true;
      return (
        creator?.toLowerCase() === account?.toLowerCase() ||
        recipient?.toLowerCase() === account?.toLowerCase()
      );
>> *)
Definition isEventForCurrentAccount (account creator recipient : option string)
    : bool :=
  if negb (js_truthy_str account) then true
  else (bool_decide (option_map js_toLowerCase creator
                     = option_map js_toLowerCase account)
        || bool_decide (option_map js_toLowerCase recipient
                        = option_map js_toLowerCase account))%bool.

Definition is_LockBuy (e : Event) : bool :=
  match e with LockBuyEv _ _ _ _ _ _ _ _ _ => true | _ => false end.

(** A receipt log: the emitting address, and what [parseLog] makes of it
    ([None] where it throws, which the wrappers map to [null]).  The
    wrappers' search:
<<
      receipt.logs
        .filter(log => log.address.toLowerCase() === swapAddress.toLowerCase())
        .map(log => { try { return swapContract.interface.parseLog(log); }
                      catch (e) { return null; } })
        .find(event => event && event.name === 'LockBuy');
>>
    (addresses compared case-insensitively are the same account). *)
Fixpoint find_receipt_event (swapAddress : Z) (is_kind : Event -> bool)
    (logs : list (Z * option Event)) : option Event :=
  match logs with
  | [] => None
  | (address, parsed) :: rest =>
      if address =? swapAddress then
        match parsed with
        | Some ev => if is_kind ev then Some ev
                     else find_receipt_event swapAddress is_kind rest
        | None => find_receipt_event swapAddress is_kind rest
        end
      else find_receipt_event swapAddress is_kind rest
  end.

(** lockBuy: [const lockId = lockBuyEvent ? lockBuyEvent.args.lockId : null]. *)
Definition lockBuy_receipt_lockId (swapAddress : Z)
    (logs : list (Z * option Event)) : option Z :=
  match find_receipt_event swapAddress is_LockBuy logs with
  | Some ev => event_lockId ev
  | None => None
  end.

(** lockSell:
<<
      const lockId = lockSellEvent && lockSellEvent.args.lockId ?
        lockSellEvent.args.lockId :
        calculateLockId(tokenAddress, account, hashedSecret, timeoutInt);
>>
    [None] where [calculateLockId] throws. *)
Definition lockSell_receipt_lockId (keccak256 : list Byte.byte -> Z)
    (swapAddress account tokenAddress hashedSecret timeoutInt : Z)
    (logs : list (Z * option Event)) : option Z :=
  match find_receipt_event swapAddress is_LockSell logs with
  | Some ev =>
      match event_lockId ev with
      | Some i => Some i
      | None => calculateLockId keccak256 tokenAddress account hashedSecret
                  timeoutInt
      end
  | None => calculateLockId keccak256 tokenAddress account hashedSecret timeoutInt
  end.

(** [Number(x)] of a BigInt [x]: the nearest double, ties to even, as an
    integer (every uint256 is below 2^1024, so no infinity arises). *)
Definition round_double_pos (z : Z) : Z :=
  if z <? 2 ^ 53 then z
  else
    let e := Z.log2 z - 52 in
    let q := z / 2 ^ e in
    let r := z mod 2 ^ e in
    let half := 2 ^ (e - 1) in
    let q' := if ((half <? r) || ((r =? half) && Z.odd q))%bool then q + 1 else q in
    q' * 2 ^ e.

Definition js_Number (z : Z) : Z :=
  if z <? 0 then - round_double_pos (- z) else round_double_pos z.

(** [x.toString()] of a BigInt [x]: its decimal digits. *)
Definition dec_digit (n : Z) : Ascii.ascii := Ascii.ascii_of_nat (Z.to_nat (48 + n)).

Fixpoint dec_digits (fuel : nat) (z : Z) (acc : string) : string :=
  match fuel with
  | O => acc
  | S f =>
      let acc' := String (dec_digit (z mod 10)) acc in
      if z <? 10 then acc' else dec_digits f (z / 10) acc'
  end.

Definition bigint_toString (z : Z) : string :=
  if z <? 0 then ("-" ++ dec_digits (S (Z.to_nat (Z.log2 (- z)))) (- z) "")%string
  else dec_digits (S (Z.to_nat (Z.log2 z))) z "".

(** The fields [formatEventByType] copies from [event.args], by type:
<<
      LockBuy:  token, creator, recipient, hashedSecret,
                timeout: Number(event.args.timeout), value: ....toString(),
                sellAssetId, sellPrice: ....toString(), lockId
      LockSell: token, creator, recipient, hashedSecret,
                timeout: Number(event.args.timeout), value: ....toString(),
                buyAssetId, buyLockId
      Unlock:   token, creator, recipient, lockId, secret
      Retrieve: token, creator, recipient, lockId
      Decline:  token, creator, recipient, lockId
>> *)
Inductive ClientArgs :=
| LockBuyArgs (token creator recipient hashedSecret timeout : Z) (value : string)
    (sellAssetId : Z) (sellPrice : string) (lockId : Z)
| LockSellArgs (token creator recipient hashedSecret timeout : Z) (value : string)
    (buyAssetId buyLockId : Z)
| UnlockArgs (token creator recipient lockId secret : Z)
| RetrieveArgs (token creator recipient lockId : Z)
| DeclineArgs (token creator recipient lockId : Z).

(** The query of each type name returns only logs of that event, so the
    fields copied are those of the event's own type. *)
Definition client_args (e : Event) : ClientArgs :=
  match e with
  | LockBuyEv tk c r h t v a p i =>
      LockBuyArgs tk c r h (js_Number t) (bigint_toString v) a
        (bigint_toString p) i
  | LockSellEv tk c r h t v a b =>
      LockSellArgs tk c r h (js_Number t) (bigint_toString v) a b
  | UnlockEv tk c r i sec => UnlockArgs tk c r i sec
  | RetrieveEv tk c r i => RetrieveArgs tk c r i
  | DeclineEv tk c r i => DeclineArgs tk c r i
  end.

(** An event as the client keeps it: its [type], the fields
    [formatEventByType] copies from [event.args], and its [timestamp] in
    milliseconds. *)
Record ClientEvent := mkClientEvent {
  ce_type : string;
  ce_args : ClientArgs;
  ce_timestamp : Z
}.

(** [eventTypes] of [fetchPastEvents], by name. *)
Definition event_type_names : list string :=
  ["LockBuy"; "LockSell"; "Unlock"; "Retrieve"; "Decline"].

(** [formatEventByType(event, typeName)]: a record of type [typeName] with
    the fields of [client_args] for the five known names, [null] ([None])
    for any other; [timestamp] is the [Date.now()] reading. *)
Definition formatEventByType (args : Event) (typeName : string) (timestamp : Z)
    : option ClientEvent :=
  if bool_decide (typeName ∈ event_type_names)
  then Some (mkClientEvent typeName (client_args args) timestamp) else None.

(** The provider [fetchPastEvents] settles on: [getBlockNumber()], and
    [getBlock(n)] with the block's [timestamp] ([None] for a null block). *)
Record Provider := mkProvider {
  getBlockNumber : Completion Z;
  getBlock : Z -> Completion (option Z)
}.

(** [contract.queryFilter(filter, fromBlock, toBlock)] of the named event
    type ([None]: no block range): the logs' block numbers and arguments. *)
Definition QueryFilter : Type :=
  string -> option (Z * Z) -> Completion (list (Z * Event)).

(** [if (block && block.timestamp) formattedEvent.timestamp = block.timestamp * 1000],
    a failing [getBlock] being caught and ignored. *)
Definition stamp_with_block (getBlock : Z -> Completion (option Z))
    (blockNumber : Z) (fe : ClientEvent) : ClientEvent :=
  match getBlock blockNumber with
  | Normal (Some ts) =>
      if ts =? 0 then fe
      else mkClientEvent (ce_type fe) (ce_args fe) (ts * 1000)
  | _ => fe
  end.

(** A call of the formatter as the loop makes it: [Normal r] with its
    result, [Throw] where the call throws. *)
Definition Formatter : Type := Event -> string -> Z -> Completion (option ClientEvent).

(** The call [formatEventByType(event, eventType.name)] once the [const]
    has been initialised. *)
Definition format_call : Formatter :=
  fun args name ts => Normal (formatEventByType args name ts).

(** The same call in the loop that runs when no provider was found: that
    loop comes before [const formatEventByType = ...] in the same block, so
    the name is still uninitialised and the call throws a ReferenceError. *)
Definition format_call_uninitialised : Formatter :=
  fun _ _ _ => Throw.

(** One iteration of the [for (const eventType of eventTypes)] loop: a
    failing query is caught and contributes nothing, and so does an event
    whose processing throws (the inner [catch (eventError)]).  [date_now]
    is the clock reading taken when a log is formatted. *)
Definition fetch_one (format : Formatter) (queryFilter : QueryFilter)
    (range : option (Z * Z)) (blocks : option (Z -> Completion (option Z)))
    (date_now : Z * Event -> Z) (name : string) : list ClientEvent :=
  match queryFilter name range with
  | Throw => []
  | Normal logs =>
      flat_map (fun log =>
        match format (snd log) name (date_now log) with
        | Throw => []
        | Normal None => []
        | Normal (Some fe) =>
            [match blocks with
             | Some gb => stamp_with_block gb (fst log) fe
             | None => fe
             end]
        end) logs
  end.

(** [allEvents.sort((a, b) => b.timestamp - a.timestamp)]: JavaScript's
    sort is stable, so this is the stable sort by decreasing timestamp. *)
Fixpoint insert_desc (x : ClientEvent) (l : list ClientEvent) : list ClientEvent :=
  match l with
  | [] => [x]
  | y :: l' =>
      if ce_timestamp y <=? ce_timestamp x then x :: l else y :: insert_desc x l'
  end.

Definition sort_desc (l : list ClientEvent) : list ClientEvent :=
  fold_right insert_desc [] l.

(** [fetchPastEvents(contract)], with [providerToUse] the provider its
    selection chain settles on ([None]: none available).  Without a
    provider the logs are queried without a block range, through the
    uninitialised formatter.  When [getBlockNumber] fails, the code queries
    LockBuy once more and returns [[]] (a failure of that query is caught by
    the outer handler, which also returns [[]]). *)
Definition fetchPastEvents (contract : option QueryFilter)
    (providerToUse : option Provider) (date_now : Z * Event -> Z)
    : list ClientEvent :=
  match contract with
  | None => []
  | Some q =>
      match providerToUse with
      | None => sort_desc (flat_map (fetch_one format_call_uninitialised q
                                       None None date_now)
                                    event_type_names)
      | Some p =>
          match getBlockNumber p with
          | Throw => []
          | Normal currentBlock =>
              let fromBlock := Z.max 0 (currentBlock - 5000) in
              sort_desc (flat_map (fetch_one format_call q
                                     (Some (fromBlock, currentBlock))
                                     (Some (getBlock p)) date_now)
                                  event_type_names)
          end
      end
  end.

(** [refreshEvents()]: its return value and the event list it leaves.
    [connected] is [swapContract && isConnected]; [provider_available] is
    [provider || swapContract.provider]; [listen] is the completion of
    [listenForEvents(swapContract)]; [pastEvents] is what
    [fetchPastEvents(swapContract)] returned. *)
Definition refreshEvents (connected provider_available : bool)
    (listen : Completion unit) (pastEvents current : list ClientEvent)
    : bool * list ClientEvent :=
  if negb connected then (false, current)
  else if negb provider_available then (false, current)
  else match listen with
       | Throw => (false, current)
       | Normal _ =>
           match pastEvents with
           | _ :: _ => (true, pastEvents)
           | [] => (true, [])
           end
       end.

(** ** Token balance and the balance check of lockBuy *)

(** The ERC-20 calls [getTokenBalance] makes. *)
Record TokenCalls := mkTokenCalls {
  tc_symbol : Completion string;
  tc_decimals : Completion Z;
  tc_balanceOf : Completion Z
}.

(** The object [getTokenBalance] returns; [tb_formatted = None] when the
    object has no [formatted] property. *)
Record TokenBalance := mkTokenBalance {
  tb_balance : string;
  tb_decimals : Z;
  tb_symbol : string;
  tb_formatted : option string
}.

(** [getTokenBalance(tokenAddress)].  [connected] is
    [signer && account && provider]; [tokenContract] is [None] where
    [getTokenContract] returns null (which the code turns into a thrown
    error); [toString] is [bigint.toString()] and [formatUnits] is
    [ethers.formatUnits]. *)
Definition getTokenBalance (connected : bool) (tokenContract : option TokenCalls)
    (toString : Z -> string) (formatUnits : Z -> Z -> Completion string)
    : TokenBalance :=
  let failed := mkTokenBalance "0" 18 "" (Some "0") in
  if negb connected then mkTokenBalance "0" 18 "" None
  else match tokenContract with
  | None => failed
  | Some tc =>
      let tokenSymbol := match tc_symbol tc with Normal v => v | Throw => "???" end in
      let tokenDecimals := match tc_decimals tc with Normal d => d | Throw => 18 end in
      match tc_balanceOf tc with
      | Throw => failed
      | Normal balance =>
          match formatUnits balance tokenDecimals with
          | Throw => failed
          | Normal f => mkTokenBalance (toString balance) tokenDecimals tokenSymbol
                          (Some f)
          end
      end
  end%string.

(** The outcome of an awaited call whose rejection carries a message. *)
Inductive CallResult :=
| Returned (v : Z)
| Failed (message : string).

(** lockBuy, the balance check; [Some msg] when lockBuy throws with [msg]:
<<
      try {
        const balance = await tokenContract.balanceOf(account);
        if (balance < valueWei) {
          throw new Error(`Insufficient token balance. You have ${balance.toString()} but need ${valueWei.toString()}`);
        }
      } catch (balanceError) {
        if (balanceError.message.includes("Insufficient")) {
          throw balanceError;
        }
        console.error("Error checking balance:", balanceError);
      }
>> *)
Definition lockBuy_balance_check (toString : Z -> string)
    (balanceOf : CallResult) (valueWei : Z) : option string :=
  let thrown :=
    match balanceOf with
    | Returned balance =>
        if balance <? valueWei then
          Some ("Insufficient token balance. You have " ++ toString balance
                ++ " but need " ++ toString valueWei)%string
        else None
    | Failed m => Some m
    end in
  match thrown with
  | None => None
  | Some m => if js_includes m "Insufficient" then Some m else None
  end.

(** * Proofs *)

(** ** The packed encoding *)

Lemma byte_of_Z_to_N (z : Z) : Z.of_N (Byte.to_N (byte_of_Z z)) = z mod 256.
Proof.
  unfold byte_of_Z.
  pose proof (Z.mod_pos_bound z 256 ltac:(lia)) as Hb.
  destruct (Byte.of_N (Z.to_N (z mod 256))) as [b|] eqn:E.
  - apply Byte.to_of_N in E. rewrite E. lia.
  - apply Byte.of_N_None_iff in E. lia.
Qed.

Lemma length_le_bytes (n : nat) (z : Z) : length (le_bytes n z) = n.
Proof. revert z; induction n; intros z; simpl; auto. Qed.

Lemma length_be_bytes (n : nat) (z : Z) : length (be_bytes n z) = n.
Proof. unfold be_bytes. rewrite length_rev. apply length_le_bytes. Qed.

Lemma le_value_le_bytes (n : nat) (z : Z) :
  le_value (le_bytes n z) = z mod 2 ^ (8 * Z.of_nat n).
Proof.
  revert z; induction n as [|n IH]; intros z; simpl le_bytes; simpl le_value.
  - rewrite Z.mul_0_r, Z.pow_0_r, Z.mod_1_r. reflexivity.
  - rewrite byte_of_Z_to_N, IH.
    replace (2 ^ (8 * Z.of_nat (S n))) with (256 * 2 ^ (8 * Z.of_nat n)).
    + rewrite Z.rem_mul_r; [lia | lia | apply Z.pow_pos_nonneg; lia].
    + rewrite Nat2Z.inj_succ, Z.mul_succ_r, Z.pow_add_r by lia. lia.
Qed.

Lemma be_bytes_inj (n : nat) (z z' : Z) :
  fits n z = true -> fits n z' = true -> be_bytes n z = be_bytes n z' -> z = z'.
Proof.
  unfold fits, be_bytes. intros H H' E.
  apply andb_prop in H as [H1 H2]. apply andb_prop in H' as [H1' H2'].
  apply Z.leb_le in H1, H1'. apply Z.ltb_lt in H2, H2'.
  apply (f_equal (@rev _)) in E. rewrite !rev_involutive in E.
  apply (f_equal le_value) in E. rewrite !le_value_le_bytes in E.
  rewrite !Z.mod_small in E by lia. exact E.
Qed.

(** The packed tuple determines the tuple. *)
Lemma solidityPacked_aabu_inj (a c h t a' c' h' t' : Z) (bs : list Byte.byte) :
  solidityPacked_aabu a c h t = Some bs ->
  solidityPacked_aabu a' c' h' t' = Some bs ->
  a = a' /\ c = c' /\ h = h' /\ t = t'.
Proof.
  unfold solidityPacked_aabu.
  destruct (fits 20 a && fits 20 c && fits 32 h && fits 32 t) eqn:R; [|discriminate].
  destruct (fits 20 a' && fits 20 c' && fits 32 h' && fits 32 t') eqn:R'; [|discriminate].
  intros E1 E2. rewrite <- E1 in E2. apply (inj Some) in E2 as E.
  rewrite !andb_true_iff in R, R'.
  destruct R as [[[Ra Rc] Rh] Rt], R' as [[[Ra' Rc'] Rh'] Rt'].
  apply app_inj_1 in E as [Ea E]; [|rewrite !length_be_bytes; reflexivity].
  apply app_inj_1 in E as [Ec E]; [|rewrite !length_be_bytes; reflexivity].
  apply app_inj_1 in E as [Eh Et]; [|rewrite !length_be_bytes; reflexivity].
  repeat split; eapply be_bytes_inj; eauto.
Qed.

(** ** The operations, step by step *)

Ltac unfold_M :=
  cbv beta iota zeta delta [mbind M_bind mret M_ret get put throw require
    find_lock set_locks emit log_transfer transferIn transferOut create
    unlock_body retrieve_body decline_body resolve_result].

Section Steps.

Variable keccak256 : list Byte.byte -> Z.

Lemma create_eq env tk r h t v ev s :
  create keccak256 env tk r h t v ev s =
  match locks s !! lockIdOf keccak256 tk (caller env) h t with
  | Some _ => inl (LockAlreadyExists (lockIdOf keccak256 tk (caller env) h t))
  | None =>
      if pull_ok env tk (caller env) v then
        inr (tt, mkState
                   (<[lockIdOf keccak256 tk (caller env) h t :=
                        mkLock tk (caller env) r h t v]> (locks s))
                   (transfers s ++ [PullIn tk (caller env) v])
                   (events s ++ [ev (lockIdOf keccak256 tk (caller env) h t)]))
      else inl (TransferInFailed tk (caller env) v)
  end.
Proof.
  unfold_M.
  destruct (locks s !! _); simpl; [reflexivity|].
  destruct (pull_ok _ _ _ _); reflexivity.
Qed.

Lemma unlock_eq env tk c sec t s :
  unlock_body keccak256 env tk c sec t s =
  let id := lockIdOf keccak256 tk c (hashSecret keccak256 sec) t in
  resolve_result s id (fun n => n <? t) (LockTimedOut id)
    (fun l => caller env =? lk_recipient l) env tk (fun _ => caller env)
    (UnlockEv tk c (caller env) id sec).
Proof.
  unfold_M.
  destruct (locks s !! _); [|reflexivity]. simpl.
  destruct (now env <? t); [|reflexivity]. simpl.
  destruct (caller env =? _); [|reflexivity]. simpl.
  destruct (push_ok _ _ _ _); reflexivity.
Qed.

Lemma retrieve_eq env tk r h t s :
  retrieve_body keccak256 env tk r h t s =
  let id := lockIdOf keccak256 tk (caller env) h t in
  resolve_result s id (fun n => t <=? n) (LockNotTimedOut id)
    (fun _ => true) env tk (fun _ => caller env)
    (RetrieveEv tk (caller env) r id).
Proof.
  unfold_M.
  destruct (locks s !! _); [|reflexivity]. simpl.
  destruct (t <=? now env); [|reflexivity]. simpl.
  destruct (push_ok _ _ _ _); reflexivity.
Qed.

Lemma decline_eq env tk c h t s :
  decline_body keccak256 env tk c h t s =
  let id := lockIdOf keccak256 tk c h t in
  resolve_result s id (fun n => n <? t) (LockTimedOut id)
    (fun l => caller env =? lk_recipient l) env tk (fun _ => c)
    (DeclineEv tk c (caller env) id).
Proof.
  unfold_M.
  destruct (locks s !! _); [|reflexivity]. simpl.
  destruct (now env <? t); [|reflexivity]. simpl.
  destruct (caller env =? _); [|reflexivity]. simpl.
  destruct (push_ok _ _ _ _); reflexivity.
Qed.

(** A rejected call leaves the whole state as it was. *)
Lemma run_error_state env c s s' e :
  run keccak256 env c s = (s', Some e) -> s' = s.
Proof.
  unfold run. destruct (call_body _ _ _ _) as [e'|[[] s'']]; congruence.
Qed.

End Steps.

(** ** Helpers on the ledger *)

Section LedgerFacts.

Variable keccak256 : list Byte.byte -> Z.

Lemma resolve_result_ok s id tok terr auth env tk payee ev u s' :
  resolve_result s id tok terr auth env tk payee ev = inr (u, s') ->
  exists l, locks s !! id = Some l /\ tok (now env) = true /\ auth l = true /\
    s' = mkState (delete id (locks s))
           (transfers s ++ [PushOut tk (payee l) (lk_value l)])
           (events s ++ [ev]).
Proof.
  unfold resolve_result.
  destruct (locks s !! id) as [l|]; [|discriminate].
  destruct (tok (now env)) eqn:T; [|discriminate].
  destruct (auth l) eqn:A; [|discriminate].
  destruct (push_ok _ _ _ _); [|discriminate].
  intros E. injection E as <- <-. eauto.
Qed.

(** A successful resolution closes the lock it addresses. *)
Lemma resolution_closes env c s s' :
  is_resolution c = true -> run keccak256 env c s = (s', None) ->
  locks s' !! target keccak256 env c = None.
Proof.
  unfold run, call_body, target.
  destruct c; simpl; try discriminate; intros _;
    [rewrite decline_eq | rewrite retrieve_eq | rewrite unlock_eq]; simpl;
    destruct (resolve_result _ _ _ _ _ _ _ _ _) as [e|[[] s'']] eqn:R;
    try discriminate; intros E; injection E as <-;
    apply resolve_result_ok in R as (l & _ & _ & _ & ->); simpl;
    apply lookup_delete_eq.
Qed.

(** A creation at a free id, with a successful pull, is accepted. *)
Lemma create_free env tk r h t v ev s :
  locks s !! lockIdOf keccak256 tk (caller env) h t = None ->
  pull_ok env tk (caller env) v = true ->
  exists s', create keccak256 env tk r h t v ev s = inr (tt, s').
Proof. intros F P. rewrite create_eq, F, P. eauto. Qed.

Lemma create_taken env tk r h t v ev s l :
  locks s !! lockIdOf keccak256 tk (caller env) h t = Some l ->
  create keccak256 env tk r h t v ev s
  = inl (LockAlreadyExists (lockIdOf keccak256 tk (caller env) h t)).
Proof. intros F. rewrite create_eq, F. reflexivity. Qed.

End LedgerFacts.

Lemma find_receipt_event_kind (swap : Z) (is_kind : Event -> bool)
    (logs : list (Z * option Event)) (ev : Event) :
  find_receipt_event swap is_kind logs = Some ev -> is_kind ev = true.
Proof.
  induction logs as [|[addr [e|]] logs IH]; simpl; [discriminate| |].
  - destruct (addr =? swap); [|exact IH].
    destruct (is_kind e) eqn:K; [intros E; injection E as <-; exact K|exact IH].
  - destruct (addr =? swap); exact IH.
Qed.

Lemma calculateLockId_fits (keccak256 : list Byte.byte -> Z) (a c h t : Z) :
  fits 20 a = true -> fits 20 c = true -> fits 32 h = true -> fits 32 t = true ->
  calculateLockId keccak256 a c h t = Some (lockIdOf keccak256 a c h t).
Proof.
  intros A C H T. unfold calculateLockId, solidityPacked_aabu.
  rewrite A, C, H, T. reflexivity.
Qed.

(** ** Claims *)

(** A stand-in hash for the concrete runs below. *)
Definition sample_hash (bs : list Byte.byte) : Z := le_value bs mod 1000003.

(** C1: on well-typed values, [calculateLockId] returns the keccak256 hash of
    the tight packing of exactly [(tokenAddress, creator, hashedSecret,
    timeout)] (20 + 20 + 32 + 32 bytes), which is the ledger's [lockIdOf]
    of the tuple; the packing is injective, so the hash input determines the
    tuple, and the function takes neither a recipient nor a value. *)
Theorem calculateLockId_packed_keccak (keccak256 : list Byte.byte -> Z)
    (a c h t : Z)
    (Hrange : fits 20 a && fits 20 c && fits 32 h && fits 32 t = true) :
  calculateLockId keccak256 a c h t
  = Some (keccak256 (be_bytes 20 a ++ be_bytes 20 c ++ be_bytes 32 h
                     ++ be_bytes 32 t)) /\
  calculateLockId keccak256 a c h t = Some (lockIdOf keccak256 a c h t) /\
  (forall a' c' h' t' bs,
     solidityPacked_aabu a c h t = Some bs ->
     solidityPacked_aabu a' c' h' t' = Some bs ->
     a = a' /\ c = c' /\ h = h' /\ t = t').
Proof.
  unfold calculateLockId, solidityPacked_aabu at 1 2. rewrite Hrange.
  split; [reflexivity|]. split; [reflexivity|].
  intros a' c' h' t' bs. apply solidityPacked_aabu_inj.
Qed.

Lemma calculateLockId_packed_keccak_witness :
  fits 20 1 && fits 20 2 && fits 32 3 && fits 32 4 = true /\
  calculateLockId sample_hash 1 2 3 4 = Some (lockIdOf sample_hash 1 2 3 4).
Proof.
  split; [vm_compute; reflexivity|].
  apply (calculateLockId_packed_keccak sample_hash 1 2 3 4).
  vm_compute. reflexivity.
Defined.

(** C2 (as the ABI has it): every record declares [token], [creator] and
    [recipient]; it is false that every record carries a [lockId]. *)
Lemma lockSell_record_without_lockId :
  ~ (forall e : Event, event_lockId e <> None).
Proof. intros H. apply (H (LockSellEv 0 0 0 0 0 0 0 0)). reflexivity. Qed.

(** C2, amended: the LockBuy, Unlock, Retrieve and Decline records carry a
    [lockId]; the record of a successful [lockSell] carries [token],
    [creator], [recipient], [hashedSecret], [timeout], [value], [buyAssetId]
    and [buyLockId] and no [lockId]; the lock it opens is stored under the
    id derived from the record's [(token, creator, hashedSecret, timeout)],
    which the client recomputes with [calculateLockId] (for arguments in
    range): it is the id the lockSell wrapper reports, whatever the
    receipt's logs. *)
Theorem event_records_lockId (keccak256 : list Byte.byte -> Z) (env : Env)
    (tk r h t v a b : Z) (s s' : State)
    (Hrun : run keccak256 env (LockSell tk r h t v a b) s = (s', None)) :
  (forall e, is_LockSell e = false -> exists i, event_lockId e = Some i) /\
  event_lockId (LockSellEv tk (caller env) r h t v a b) = None /\
  (event_token (LockSellEv tk (caller env) r h t v a b),
   event_creator (LockSellEv tk (caller env) r h t v a b),
   event_recipient (LockSellEv tk (caller env) r h t v a b))
  = (tk, caller env, r) /\
  events s' = events s ++ [LockSellEv tk (caller env) r h t v a b] /\
  locks s' !! lockIdOf keccak256 tk (caller env) h t
  = Some (mkLock tk (caller env) r h t v) /\
  (fits 20 tk = true -> fits 20 (caller env) = true ->
   fits 32 h = true -> fits 32 t = true ->
   calculateLockId keccak256 tk (caller env) h t
   = Some (lockIdOf keccak256 tk (caller env) h t) /\
   forall swap logs,
     lockSell_receipt_lockId keccak256 swap (caller env) tk h t logs
     = Some (lockIdOf keccak256 tk (caller env) h t)).
Proof.
  split; [intros []; simpl; try discriminate; eauto|].
  split; [reflexivity|]. split; [reflexivity|].
  split; [|split].
  - revert Hrun. unfold run, call_body. rewrite create_eq.
    destruct (locks s !! _); [discriminate|].
    destruct (pull_ok _ _ _ _); [|discriminate].
    intros E. injection E as <-. reflexivity.
  - revert Hrun. unfold run, call_body. rewrite create_eq.
    destruct (locks s !! _); [discriminate|].
    destruct (pull_ok _ _ _ _); [|discriminate].
    intros E. injection E as <-. apply lookup_insert_eq.
  - intros A C H T. split; [apply calculateLockId_fits; assumption|].
    intros swap logs. unfold lockSell_receipt_lockId.
    destruct (find_receipt_event swap is_LockSell logs) as [ev|] eqn:Fd.
    + apply find_receipt_event_kind in Fd.
      destruct ev; try discriminate Fd. simpl.
      apply calculateLockId_fits; assumption.
    + apply calculateLockId_fits; assumption.
Qed.

Lemma event_records_lockId_witness :
  let env := mkEnv 5 1 (fun _ _ _ => true) (fun _ _ _ => true) in
  let s := mkState ∅ [] [] in
  run sample_hash env (LockSell 7 2 3 10 1000 0 0) s
  = (fst (run sample_hash env (LockSell 7 2 3 10 1000 0 0) s), None) /\
  event_lockId (LockSellEv 7 1 2 3 10 1000 0 0) = None /\
  lockSell_receipt_lockId sample_hash 8 1 7 3 10
    [(8, Some (LockSellEv 7 1 2 3 10 1000 0 0))]
  = Some (lockIdOf sample_hash 7 1 3 10).
Proof.
  intros env s.
  assert (Hrun : run sample_hash env (LockSell 7 2 3 10 1000 0 0) s
          = (fst (run sample_hash env (LockSell 7 2 3 10 1000 0 0) s), None))
    by (vm_compute; reflexivity).
  split; [exact Hrun|].
  destruct (event_records_lockId sample_hash env 7 2 3 10 1000 0 0 s
              (fst (run sample_hash env (LockSell 7 2 3 10 1000 0 0) s)) Hrun)
    as (_ & N & _ & _ & _ & R).
  split; [exact N|].
  apply R; vm_compute; reflexivity.
Defined.

(** C3: on an open lock, [unlock] and [decline] succeed only strictly
    before [timeout] and fail with [LockTimedOut] at or after it; [retrieve]
    succeeds only at or after [timeout] and fails with [LockNotTimedOut]
    before it. *)
Theorem resolution_timing (keccak256 : list Byte.byte -> Z) (env : Env)
    (tk c r secret h t : Z) (s : State) :
  let uid := lockIdOf keccak256 tk c (hashSecret keccak256 secret) t in
  let did := lockIdOf keccak256 tk c h t in
  let rid := lockIdOf keccak256 tk (caller env) h t in
  (snd (run keccak256 env (Unlock tk c secret t) s) = None -> now env < t) /\
  (is_Some (locks s !! uid) -> t <= now env ->
   snd (run keccak256 env (Unlock tk c secret t) s) = Some (LockTimedOut uid)) /\
  (snd (run keccak256 env (Decline tk c h t) s) = None -> now env < t) /\
  (is_Some (locks s !! did) -> t <= now env ->
   snd (run keccak256 env (Decline tk c h t) s) = Some (LockTimedOut did)) /\
  (snd (run keccak256 env (Retrieve tk r h t) s) = None -> t <= now env) /\
  (is_Some (locks s !! rid) -> now env < t ->
   snd (run keccak256 env (Retrieve tk r h t) s)
   = Some (LockNotTimedOut rid)).
Proof.
  intros uid did rid. unfold run, call_body.
  rewrite unlock_eq, decline_eq, retrieve_eq. simpl. fold uid did rid.
  unfold resolve_result.
  repeat split.
  - destruct (locks s !! uid); [|discriminate].
    destruct (now env <? t) eqn:T; [lia|discriminate].
  - intros [l ->] Ht. replace (now env <? t) with false by lia. reflexivity.
  - destruct (locks s !! did); [|discriminate].
    destruct (now env <? t) eqn:T; [lia|discriminate].
  - intros [l ->] Ht. replace (now env <? t) with false by lia. reflexivity.
  - destruct (locks s !! rid); [|discriminate].
    destruct (t <=? now env) eqn:T; [lia|discriminate].
  - intros [l ->] Ht. replace (t <=? now env) with false by lia. reflexivity.
Qed.

(** C4: a rejected call leaves the ledger state (lock table, custody log
    and records) exactly as before; a creation rejected with
    [TransferInFailed] records no lock at its id, and a resolution rejected
    with [TransferOutFailed] leaves its lock open. *)
Theorem rejected_call_atomic (keccak256 : list Byte.byte -> Z) (env : Env)
    (c : Call) (s s' : State) (e : Error)
    (Hrun : run keccak256 env c s = (s', Some e)) :
  s' = s /\
  (forall tk a v, e = TransferInFailed tk a v ->
     locks s' !! target keccak256 env c = None) /\
  (forall tk a v, e = TransferOutFailed tk a v ->
     is_Some (locks s' !! target keccak256 env c)).
Proof.
  pose proof (run_error_state keccak256 env c s s' e Hrun) as ->.
  split; [reflexivity|].
  revert Hrun. unfold run, call_body, target.
  destruct c as [tk cr h t|tk r h t v a p|tk r h t v a b|tk r h t|tk cr sec t];
    rewrite ?create_eq, ?decline_eq, ?retrieve_eq, ?unlock_eq; simpl;
    unfold resolve_result;
    [ destruct (locks s !! _) as [l|] eqn:L; [|intros E; injection E as <-;
        split; intros; discriminate]
    | destruct (locks s !! _) as [l|] eqn:L;
        [intros E; injection E as <-; split; intros; discriminate|]
    | destruct (locks s !! _) as [l|] eqn:L;
        [intros E; injection E as <-; split; intros; discriminate|]
    | destruct (locks s !! _) as [l|] eqn:L; [|intros E; injection E as <-;
        split; intros; discriminate]
    | destruct (locks s !! _) as [l|] eqn:L; [|intros E; injection E as <-;
        split; intros; discriminate] ];
    repeat match goal with
    | |- context [if ?b then _ else _] => destruct b
    end; intros E; try discriminate; injection E as <-;
    split; intros ? ? ? He; try discriminate; eauto.
Qed.

Lemma rejected_call_atomic_witness :
  let s := fst (run sample_hash (mkEnv 5 1 (fun _ _ _ => true) (fun _ _ _ => true))
                  (LockBuy 7 2 (hashSecret sample_hash 3) 10 1000 0 0)
                  (mkState ∅ [] [])) in
  let env := mkEnv 6 2 (fun _ _ _ => true) (fun _ _ _ => false) in
  run sample_hash env (Unlock 7 1 3 10) s
  = (s, Some (TransferOutFailed 7 2 1000)) /\
  is_Some (locks s !! target sample_hash env (Unlock 7 1 3 10)).
Proof.
  intros s env.
  assert (H : run sample_hash env (Unlock 7 1 3 10) s
              = (s, Some (TransferOutFailed 7 2 1000)))
    by (vm_compute; reflexivity).
  split; [exact H|].
  exact (proj2 (proj2 (rejected_call_atomic sample_hash env (Unlock 7 1 3 10)
                         s s (TransferOutFailed 7 2 1000) H)) 7 2 1000 eq_refl).
Defined.

(** C5: while the lock of [(token, creator, hashedSecret, timeout)] is
    open, a second [lockBuy] or [lockSell] by that creator with the same
    tuple, whatever its recipient and value, is rejected with
    [LockAlreadyExists] and changes nothing; once a resolution has closed
    the lock, a creation with the same tuple (whose pull succeeds) is
    accepted again. *)
Theorem open_lockId_unique (keccak256 : list Byte.byte -> Z) :
  (forall env tk r h t v a p b s l,
     locks s !! lockIdOf keccak256 tk (caller env) h t = Some l ->
     run keccak256 env (LockBuy tk r h t v a p) s
     = (s, Some (LockAlreadyExists (lockIdOf keccak256 tk (caller env) h t))) /\
     run keccak256 env (LockSell tk r h t v a b) s
     = (s, Some (LockAlreadyExists (lockIdOf keccak256 tk (caller env) h t)))) /\
  (forall env1 env2 op s s1 tk c h t r v a p b,
     is_resolution op = true ->
     target keccak256 env1 op = lockIdOf keccak256 tk c h t ->
     run keccak256 env1 op s = (s1, None) ->
     caller env2 = c -> pull_ok env2 tk c v = true ->
     (exists s2, run keccak256 env2 (LockBuy tk r h t v a p) s1 = (s2, None)) /\
     (exists s2, run keccak256 env2 (LockSell tk r h t v a b) s1 = (s2, None))).
Proof.
  split.
  - intros env tk r h t v a p b s l L. unfold run, call_body.
    rewrite !(create_taken keccak256 env tk r h t v _ s l L). split; reflexivity.
  - intros env1 env2 op s s1 tk c h t r v a p b R T Hrun C P.
    pose proof (resolution_closes keccak256 env1 op s s1 R Hrun) as F.
    rewrite T, <- C in F. rewrite <- C in P.
    unfold run, call_body.
    split;
      [ destruct (create_free keccak256 env2 tk r h t v
                    (LockBuyEv tk (caller env2) r h t v a p) s1 F P) as [s2 ->]
      | destruct (create_free keccak256 env2 tk r h t v
                    (fun _ => LockSellEv tk (caller env2) r h t v a b) s1 F P)
          as [s2 ->] ];
      eauto.
Qed.

(** C6: [unlock] takes [(token, creator, secret, timeout)]; it succeeds only
    on the lock stored under the id of [(token, creator, H(secret),
    timeout)], only when the caller is that lock's recipient, and then pays
    the lock's value to the caller and closes the lock. *)
Theorem unlock_pays_stored_recipient (keccak256 : list Byte.byte -> Z)
    (env : Env) (tk c secret t : Z) (s s' : State)
    (Hrun : run keccak256 env (Unlock tk c secret t) s = (s', None)) :
  exists l,
    locks s !! lockIdOf keccak256 tk c (hashSecret keccak256 secret) t = Some l /\
    caller env = lk_recipient l /\
    transfers s' = transfers s ++ [PushOut tk (caller env) (lk_value l)] /\
    locks s' = delete (lockIdOf keccak256 tk c (hashSecret keccak256 secret) t)
                 (locks s).
Proof.
  revert Hrun. unfold run, call_body. rewrite unlock_eq. simpl.
  destruct (resolve_result _ _ _ _ _ _ _ _ _) as [e|[[] s'']] eqn:R;
    [discriminate|].
  intros E. injection E as <-.
  apply resolve_result_ok in R as (l & L & _ & A & ->).
  exists l. simpl. repeat split; auto. apply Z.eqb_eq. exact A.
Qed.

Lemma unlock_pays_stored_recipient_witness :
  let s := fst (run sample_hash (mkEnv 5 1 (fun _ _ _ => true) (fun _ _ _ => true))
                  (LockBuy 7 2 (hashSecret sample_hash 3) 10 1000 0 0)
                  (mkState ∅ [] [])) in
  let env := mkEnv 6 2 (fun _ _ _ => true) (fun _ _ _ => true) in
  run sample_hash env (Unlock 7 1 3 10) s
  = (fst (run sample_hash env (Unlock 7 1 3 10) s), None) /\
  exists l,
    locks s !! lockIdOf sample_hash 7 1 (hashSecret sample_hash 3) 10 = Some l /\
    caller env = lk_recipient l.
Proof.
  intros s env.
  assert (H : run sample_hash env (Unlock 7 1 3 10) s
              = (fst (run sample_hash env (Unlock 7 1 3 10) s), None))
    by (vm_compute; reflexivity).
  split; [exact H|].
  destruct (unlock_pays_stored_recipient sample_hash env 7 1 3 10 s _ H)
    as (l & L & C & _).
  exists l. split; [exact L | exact C].
Defined.

(** C7: the ABI declares exactly six errors; each carries structured
    detail (the [lockId] for the four lock errors; the asset, the account
    and the amount for the two transfer errors); and every rejection of a
    call is a hard one: it reverts the whole state and hands the error to
    the caller, with the id of the lock the call addresses, or, for a
    transfer failure, the call's asset with the account and amount. *)
Theorem error_taxonomy (keccak256 : list Byte.byte -> Z) :
  length abi_error_names = 6%nat /\ NoDup abi_error_names /\
  (forall e, In (error_name e) abi_error_names) /\
  (forall e, (exists i, error_lockId e = Some i) \/
             (exists tk a v, error_transfer e = Some (tk, a, v))) /\
  (forall env c s s' e,
     run keccak256 env c s = (s', Some e) ->
     s' = s /\
     (error_lockId e = Some (target keccak256 env c) \/
      exists a v, error_transfer e = Some (call_token c, a, v))).
Proof.
  split; [reflexivity|].
  split; [apply (bool_decide_unpack _); vm_compute; reflexivity|].
  split; [intros []; simpl; tauto|].
  split; [intros []; simpl; eauto 6|].
  intros env c s s' e Hrun.
  split; [exact (run_error_state keccak256 env c s s' e Hrun)|].
  revert Hrun. unfold run, call_body, target, call_token.
  destruct c;
    rewrite ?create_eq, ?decline_eq, ?retrieve_eq, ?unlock_eq; simpl;
    unfold resolve_result;
    repeat match goal with
    | |- context [match ?m with Some _ => _ | None => _ end] => destruct m
    | |- context [if ?b then _ else _] => destruct b
    end;
    intros E; try discriminate; injection E as _ <-; simpl; eauto.
Qed.

(** C8: [getLockValue] is read-only; it returns the value of an open lock
    and the not-found condition for an id with no open lock, in particular
    for a lock a resolution has closed. *)
Theorem getLockValue_spec (keccak256 : list Byte.byte -> Z) :
  (forall id s v s', getLockValue id s = inr (v, s') -> s' = s) /\
  (forall id s l, locks s !! id = Some l ->
     getLockValue id s = inr (lk_value l, s)) /\
  (forall id s, locks s !! id = None ->
     getLockValue id s = inl (LockNotFound id)) /\
  (forall env op s0 s, is_resolution op = true ->
     run keccak256 env op s0 = (s, None) ->
     getLockValue (target keccak256 env op) s
     = inl (LockNotFound (target keccak256 env op))).
Proof.
  unfold getLockValue. unfold_M.
  split; [intros id s v s'; destruct (locks s !! id); congruence|].
  split; [intros id s l ->; reflexivity|].
  split; [intros id s ->; reflexivity|].
  intros env op s0 s R Hrun.
  rewrite (resolution_closes keccak256 env op s0 s R Hrun). reflexivity.
Qed.

Section ClientAmountFacts.

Variable Num : Type.
Variable num_mul : Num -> Num -> Num.
Variable million : Num.
Variable js_String : Num -> string.
Variable js_trim : string -> string.
Variable js_BigInt : string -> option Z.
Variable math_floor_Number : Num -> Num.

(** C9: in the client [lockSell], [useRawValue] has no effect: both
    branches submit [BigInt(String(value*1000000))], so the transaction is
    the same for either flag, whatever the number [value]; in [lockBuy],
    [useRawValue = true] submits [BigInt(String(value))] unscaled. *)
Theorem lockSell_useRawValue_no_effect
    (tokenAddress recipient hashedSecret : string) (timeout value : Num)
    (buyAssetId buyLockId : option string) :
  lockSell_tx Num num_mul million js_String js_trim js_BigInt math_floor_Number
    tokenAddress recipient hashedSecret timeout value buyAssetId buyLockId true
  = lockSell_tx Num num_mul million js_String js_trim js_BigInt math_floor_Number
    tokenAddress recipient hashedSecret timeout value buyAssetId buyLockId false /\
  lockSell_valueWei Num num_mul million js_String js_trim js_BigInt true value
  = js_BigInt (js_trim (js_String (num_mul value million))) /\
  lockSell_valueWei Num num_mul million js_String js_trim js_BigInt false value
  = js_BigInt (js_trim (js_String (num_mul value million))) /\
  lockBuy_valueWei Num num_mul million js_String js_trim js_BigInt true value
  = js_BigInt (js_trim (js_String value)) /\
  lockBuy_valueWei Num num_mul million js_String js_trim js_BigInt false value
  = js_BigInt (js_trim (js_String (num_mul value million))).
Proof. repeat split. Qed.

End ClientAmountFacts.

(** C10: the client [getLockValue] never throws: it returns ["0"] when no
    contract is connected or when the contract call rejects (in particular
    on the ledger's not-found condition), and otherwise [formatEther] of the
    value the call returns. *)
Theorem client_getLockValue_total (swapContract : option (Z -> Completion Z))
    (formatEther : Z -> string) (lockId : Z) :
  client_getLockValue swapContract formatEther lockId <> Throw /\
  (swapContract = None ->
   client_getLockValue swapContract formatEther lockId = Normal "0"%string) /\
  (forall call, swapContract = Some call -> call lockId = Throw ->
   client_getLockValue swapContract formatEther lockId = Normal "0"%string) /\
  (forall call v, swapContract = Some call -> call lockId = Normal v ->
   client_getLockValue swapContract formatEther lockId = Normal (formatEther v)) /\
  (forall s, locks s !! lockId = None ->
   client_getLockValue (Some (ledger_view s)) formatEther lockId
   = Normal "0"%string).
Proof.
  unfold client_getLockValue.
  split; [destruct swapContract as [call|]; [destruct (call lockId)|];
          discriminate|].
  split; [intros ->; reflexivity|].
  split; [intros call -> ->; reflexivity|].
  split; [intros call v -> ->; reflexivity|].
  intros s L. unfold ledger_view, getLockValue. unfold_M. rewrite L.
  reflexivity.
Qed.

(** * More of the client *)

(** ** String helpers *)

Lemma length_string_of_list_ascii (l : list Ascii.ascii) :
  String.length (String.string_of_list_ascii l) = length l.
Proof. induction l; simpl; auto. Qed.

Lemma length_string_append (s1 s2 : string) :
  String.length (s1 ++ s2) = (String.length s1 + String.length s2)%nat.
Proof. induction s1; simpl; auto. Qed.

Lemma length_hex_nibbles (k : nat) (z : Z) : length (hex_nibbles k z) = k.
Proof.
  revert z; induction k; intros z; simpl; [reflexivity|].
  rewrite length_app, IHk. simpl. lia.
Qed.

Lemma hex32_shape (z : Z) :
  String.prefix "0x" (hex32 z) = true /\ String.length (hex32 z) = 66%nat.
Proof.
  unfold hex32. split; [reflexivity|].
  rewrite length_string_append.
  rewrite length_string_of_list_ascii, length_hex_nibbles. reflexivity.
Qed.

Lemma drop_ws_app_last (l : list Ascii.ascii) (c : Ascii.ascii) :
  js_is_ws c = false -> drop_ws (l ++ [c]) <> [].
Proof.
  intros W. induction l as [|d l IH]; simpl.
  - rewrite W. discriminate.
  - destruct (js_is_ws d); [exact IH|discriminate].
Qed.

Lemma string_of_list_ascii_nil (l : list Ascii.ascii) :
  String.string_of_list_ascii l = ""%string -> l = [].
Proof. destruct l; simpl; [auto|discriminate]. Qed.

(** A string whose first character is not white space does not trim to
    the empty string. *)
Lemma js_trim_str_nonblank (c : Ascii.ascii) (v : string) :
  js_is_ws c = false -> js_trim_str (String c v) <> ""%string.
Proof.
  intros W E. unfold js_trim_str in E. simpl in E. rewrite W in E.
  apply string_of_list_ascii_nil in E.
  apply (f_equal (@rev _)) in E. rewrite rev_involutive in E. simpl in E.
  exact (drop_ws_app_last _ c W E).
Qed.

(** A [0x]-prefixed 66-character string is left as it is by lockBuy. *)
Lemma format_sellAssetId_bytes32 (keccak256 : list Byte.byte -> Z) (v : string) :
  String.prefix "0x" v = true -> String.length v = 66%nat ->
  format_sellAssetId keccak256 (Some v) = v.
Proof.
  intros P L. unfold format_sellAssetId.
  destruct v as [|c v]; [discriminate|].
  destruct c as [[] [] [] [] [] [] [] []];
    try (exfalso; cbv in P; discriminate P).
  match goal with
  | |- context [String.eqb (js_trim_str ?w) ""] =>
      destruct (String.eqb_spec (js_trim_str w) "") as [E|_]
  end.
  - exfalso. revert E. apply js_trim_str_nonblank. reflexivity.
  - rewrite P, L. reflexivity.
Qed.

Lemma lower_char_idem (c : Ascii.ascii) :
  js_lower_char (js_lower_char c) = js_lower_char c.
Proof.
  destruct c as [[] [] [] [] [] [] [] []]; vm_compute; reflexivity.
Qed.

Lemma js_toLowerCase_idem (s : string) :
  js_toLowerCase (js_toLowerCase s) = js_toLowerCase s.
Proof.
  unfold js_toLowerCase. rewrite String.list_ascii_of_string_of_list_ascii.
  rewrite map_map. f_equal. apply map_ext. apply lower_char_idem.
Qed.

Lemma js_toLowerCase_empty (s : string) :
  js_toLowerCase s = ""%string <-> s = ""%string.
Proof. destruct s; unfold js_toLowerCase; cbn; split; congruence. Qed.

Lemma format_sellAssetId_shape_aux (keccak256 : list Byte.byte -> Z)
    (x : option string) :
  String.prefix "0x" (format_sellAssetId keccak256 x) = true /\
  String.length (format_sellAssetId keccak256 x) = 66%nat.
Proof.
  unfold format_sellAssetId. destruct x as [v|]; [|split; reflexivity].
  destruct (String.eqb (js_trim_str v) ""); [split; reflexivity|].
  destruct (String.prefix "0x" v && Nat.eqb (String.length v) 66)%bool eqn:B.
  - apply andb_prop in B as [P L]. apply Nat.eqb_eq in L. auto.
  - apply hex32_shape.
Qed.

(** ** Asset-id arguments of lockSell and lockBuy *)

(** X1. lockSell's formatting of [buyAssetId] and [buyLockId] always yields
    a [0x]-prefixed string, and applying it to its own result changes
    nothing. *)
Theorem format_bytes32_arg_prefix_idem (x : option string) :
  String.prefix "0x" (format_bytes32_arg x) = true /\
  format_bytes32_arg (Some (format_bytes32_arg x)) = format_bytes32_arg x.
Proof.
  unfold format_bytes32_arg.
  destruct x as [v|]; [|split; reflexivity].
  destruct (String.prefix "0x" v) eqn:P; [rewrite P; auto|split; reflexivity].
Qed.

(** X2. lockBuy's formatting of [sellAssetId] always yields a [0x]-prefixed
    string of 66 characters (a 32-byte hex value), and applying it to its
    own result changes nothing. *)
Theorem format_sellAssetId_bytes32_idem (keccak256 : list Byte.byte -> Z)
    (x : option string) :
  String.prefix "0x" (format_sellAssetId keccak256 x) = true /\
  String.length (format_sellAssetId keccak256 x) = 66%nat /\
  format_sellAssetId keccak256 (Some (format_sellAssetId keccak256 x))
  = format_sellAssetId keccak256 x.
Proof.
  destruct (format_sellAssetId_shape_aux keccak256 x) as [P L].
  split; [exact P|]. split; [exact L|].
  apply format_sellAssetId_bytes32; assumption.
Qed.

(** X3. A non-blank asset id without the [0x] prefix is hashed by lockBuy
    ([keccak256] of its UTF-8 bytes) but replaced by the zero hash in
    lockSell. *)
Theorem asset_id_text_hashed_or_zeroed (keccak256 : list Byte.byte -> Z)
    (v : string) :
  js_trim_str v <> ""%string -> String.prefix "0x" v = false ->
  format_sellAssetId keccak256 (Some v) = hex32 (keccak256 (toUtf8Bytes v)) /\
  format_bytes32_arg (Some v) = ethers_ZeroHash.
Proof.
  intros B P. unfold format_sellAssetId, format_bytes32_arg.
  rewrite P. destruct (String.eqb_spec (js_trim_str v) "") as [E|_].
  - contradiction.
  - simpl. auto.
Qed.

Lemma asset_id_text_hashed_or_zeroed_witness :
  js_trim_str "USDC" <> ""%string /\ String.prefix "0x" "USDC" = false /\
  format_sellAssetId sample_hash (Some "USDC"%string)
  = hex32 (sample_hash (toUtf8Bytes "USDC")) /\
  format_bytes32_arg (Some "USDC"%string) = ethers_ZeroHash.
Proof.
  assert (B : js_trim_str "USDC" <> ""%string)
    by (intros E; vm_compute in E; discriminate E).
  split; [exact B|]. split; [reflexivity|].
  apply asset_id_text_hashed_or_zeroed; [exact B|reflexivity].
Defined.

(** X4. lockSell passes a [0x]-prefixed string whose length is not 66
    through unchanged, and that string is never the result of lockBuy's
    formatting, whatever its input. *)
Theorem lockSell_asset_arg_length_unchecked (keccak256 : list Byte.byte -> Z)
    (v : string) :
  String.prefix "0x" v = true -> String.length v <> 66%nat ->
  format_bytes32_arg (Some v) = v /\
  (forall x, format_sellAssetId keccak256 x <> v).
Proof.
  intros P L. split.
  - unfold format_bytes32_arg. rewrite P. reflexivity.
  - intros x E. destruct (format_sellAssetId_shape_aux keccak256 x) as [_ L'].
    rewrite E in L'. contradiction.
Qed.

Lemma lockSell_asset_arg_length_unchecked_witness :
  String.prefix "0x" "0x12" = true /\ String.length "0x12" <> 66%nat /\
  format_bytes32_arg (Some "0x12"%string) = "0x12"%string /\
  (forall x, format_sellAssetId sample_hash x <> "0x12"%string).
Proof.
  assert (L : String.length "0x12" <> 66%nat) by (vm_compute; discriminate).
  split; [reflexivity|]. split; [exact L|].
  apply lockSell_asset_arg_length_unchecked; [reflexivity|exact L].
Defined.

(** ** Event relevance *)

Lemma js_truthy_str_lower (a : option string) :
  js_truthy_str (option_map js_toLowerCase a) = js_truthy_str a.
Proof.
  destruct a as [v|]; simpl; [|reflexivity]. f_equal.
  destruct (String.eqb_spec (js_toLowerCase v) ""),
           (String.eqb_spec v ""); auto.
  - exfalso. apply n. apply js_toLowerCase_empty. assumption.
  - exfalso. apply n. apply js_toLowerCase_empty. assumption.
Qed.

Lemma option_map_lower_idem (a : option string) :
  option_map js_toLowerCase (option_map js_toLowerCase a)
  = option_map js_toLowerCase a.
Proof. destruct a; simpl; [rewrite js_toLowerCase_idem|]; reflexivity. Qed.

Lemma js_truthy_str_lower_eq (a a' : option string) :
  option_map js_toLowerCase a = option_map js_toLowerCase a' ->
  js_truthy_str a = js_truthy_str a'.
Proof.
  intros E. rewrite <- (js_truthy_str_lower a), <- (js_truthy_str_lower a').
  rewrite E. reflexivity.
Qed.

(** X5. The event filter of [listenForEvents] ignores letter case: two
    accounts, creators and recipients that are equal up to lower-casing
    keep or drop an event alike. *)
Theorem isEventForCurrentAccount_case_insensitive
    (account creator recipient account' creator' recipient' : option string) :
  option_map js_toLowerCase account = option_map js_toLowerCase account' ->
  option_map js_toLowerCase creator = option_map js_toLowerCase creator' ->
  option_map js_toLowerCase recipient = option_map js_toLowerCase recipient' ->
  isEventForCurrentAccount account creator recipient
  = isEventForCurrentAccount account' creator' recipient'.
Proof.
  intros A C R. unfold isEventForCurrentAccount.
  rewrite (js_truthy_str_lower_eq _ _ A), A, C, R. reflexivity.
Qed.

Lemma isEventForCurrentAccount_case_insensitive_witness :
  option_map js_toLowerCase (Some "0xAbC"%string)
  = option_map js_toLowerCase (Some "0xabc"%string) /\
  isEventForCurrentAccount (Some "0xAbC"%string) (Some "0xABC"%string) None
  = isEventForCurrentAccount (Some "0xabc"%string) (Some "0xabc"%string) None.
Proof.
  split; [vm_compute; reflexivity|].
  apply isEventForCurrentAccount_case_insensitive; vm_compute; reflexivity.
Defined.

(** ** Receipts of lockBuy and lockSell *)

Lemma find_receipt_event_skip (swap : Z) (is_kind : Event -> bool)
    (before rest : list (Z * option Event)) :
  Forall (fun lg => fst lg <> swap) before ->
  find_receipt_event swap is_kind (before ++ rest)
  = find_receipt_event swap is_kind rest.
Proof.
  induction 1 as [|[addr parsed] before N _ IH]; simpl; [reflexivity|].
  simpl in N. destruct (Z.eqb_spec addr swap); [contradiction|exact IH].
Qed.



Lemma create_run_ok (keccak256 : list Byte.byte -> Z) env tk r h t v ev s s' :
  create keccak256 env tk r h t v ev s = inr (tt, s') ->
  s' = mkState (<[lockIdOf keccak256 tk (caller env) h t :=
                    mkLock tk (caller env) r h t v]> (locks s))
                (transfers s ++ [PullIn tk (caller env) v])
                (events s ++ [ev (lockIdOf keccak256 tk (caller env) h t)]).
Proof.
  rewrite create_eq. destruct (locks s !! _); [discriminate|].
  destruct (pull_ok _ _ _ _); [|discriminate].
  intros E. injection E as <-. reflexivity.
Qed.

(** X6. After a successful [lockBuy], the wrapper reads from the receipt
    the id under which the contract stored the new lock: the record the
    call appended is found among the receipt's logs even when logs of
    other addresses (such as the token's transfer) come first. *)
Theorem lockBuy_receipt_reports_stored_key (keccak256 : list Byte.byte -> Z)
    (env : Env) (tk r h t v a p : Z) (s s' : State) (swap : Z)
    (before after : list (Z * option Event)) :
  run keccak256 env (LockBuy tk r h t v a p) s = (s', None) ->
  Forall (fun lg => fst lg <> swap) before ->
  exists ev,
    events s' = events s ++ [ev] /\
    lockBuy_receipt_lockId swap (before ++ (swap, Some ev) :: after)
    = Some (lockIdOf keccak256 tk (caller env) h t) /\
    locks s' !! lockIdOf keccak256 tk (caller env) h t
    = Some (mkLock tk (caller env) r h t v).
Proof.
  intros Hrun F. revert Hrun. unfold run, call_body.
  destruct (create _ _ _ _ _ _ _ _ _) as [e|[[] s'']] eqn:C; [discriminate|].
  intros E. injection E as <-. apply create_run_ok in C as ->.
  eexists. split; [reflexivity|]. split.
  - unfold lockBuy_receipt_lockId. rewrite find_receipt_event_skip by exact F.
    simpl. rewrite Z.eqb_refl. reflexivity.
  - apply lookup_insert_eq.
Qed.

Lemma lockBuy_receipt_reports_stored_key_witness :
  let env := mkEnv 5 1 (fun _ _ _ => true) (fun _ _ _ => true) in
  let s := mkState ∅ [] [] in
  let s' := fst (run sample_hash env (LockBuy 7 2 3 10 1000 0 0) s) in
  run sample_hash env (LockBuy 7 2 3 10 1000 0 0) s = (s', None) /\
  Forall (fun lg : Z * option Event => fst lg <> 8) [(7, None)] /\
  exists ev,
    events s' = events s ++ [ev] /\
    lockBuy_receipt_lockId 8 ([(7, None)] ++ (8, Some ev) :: [])
    = Some (lockIdOf sample_hash 7 (caller env) 3 10) /\
    locks s' !! lockIdOf sample_hash 7 (caller env) 3 10
    = Some (mkLock 7 (caller env) 2 3 10 1000).
Proof.
  intros env s s'. split; [vm_compute; reflexivity|].
  split; [repeat constructor; simpl; lia|].
  apply (lockBuy_receipt_reports_stored_key sample_hash env 7 2 3 10 1000 0 0
           s s' 8 [(7, None)] []).
  - vm_compute. reflexivity.
  - repeat constructor; simpl; lia.
Defined.

(** X7. After a successful [lockSell] whose arguments are in range, the
    wrapper reports the id under which the contract stored the new lock,
    whatever the receipt's logs: the LockSell record carries no [lockId],
    so the wrapper always derives it with [calculateLockId] from the
    token, the account (the caller), [hashedSecret] and [timeout]. *)
Theorem lockSell_receipt_reports_stored_key (keccak256 : list Byte.byte -> Z)
    (env : Env) (tk r h t v a b : Z) (s s' : State) (swap : Z)
    (logs : list (Z * option Event)) :
  run keccak256 env (LockSell tk r h t v a b) s = (s', None) ->
  fits 20 tk = true -> fits 20 (caller env) = true ->
  fits 32 h = true -> fits 32 t = true ->
  lockSell_receipt_lockId keccak256 swap (caller env) tk h t logs
  = Some (lockIdOf keccak256 tk (caller env) h t) /\
  locks s' !! lockIdOf keccak256 tk (caller env) h t
  = Some (mkLock tk (caller env) r h t v).
Proof.
  intros Hrun A C H T. split.
  - unfold lockSell_receipt_lockId.
    destruct (find_receipt_event swap is_LockSell logs) as [ev|] eqn:Fd.
    + apply find_receipt_event_kind in Fd.
      destruct ev; try discriminate Fd. simpl. apply calculateLockId_fits; assumption.
    + apply calculateLockId_fits; assumption.
  - revert Hrun. unfold run, call_body.
    destruct (create _ _ _ _ _ _ _ _ _) as [e|[[] s'']] eqn:Cr; [discriminate|].
    intros E. injection E as <-. apply create_run_ok in Cr as ->.
    apply lookup_insert_eq.
Qed.

Lemma lockSell_receipt_reports_stored_key_witness :
  let env := mkEnv 5 1 (fun _ _ _ => true) (fun _ _ _ => true) in
  let s := mkState ∅ [] [] in
  let s' := fst (run sample_hash env (LockSell 7 2 3 10 1000 0 0) s) in
  let logs := [(8, Some (LockSellEv 7 1 2 3 10 1000 0 0))] in
  run sample_hash env (LockSell 7 2 3 10 1000 0 0) s = (s', None) /\
  lockSell_receipt_lockId sample_hash 8 1 7 3 10 logs
  = Some (lockIdOf sample_hash 7 1 3 10) /\
  locks s' !! lockIdOf sample_hash 7 1 3 10 = Some (mkLock 7 1 2 3 10 1000).
Proof.
  intros env s s' logs. split; [vm_compute; reflexivity|].
  apply (lockSell_receipt_reports_stored_key sample_hash env 7 2 3 10 1000 0 0
           s s' 8 logs); vm_compute; reflexivity.
Defined.

(** ** Event history *)

Lemma fetch_one_uninitialised (q : QueryFilter) (range : option (Z * Z))
    (blocks : option (Z -> Completion (option Z))) (date_now : Z * Event -> Z)
    (name : string) :
  fetch_one format_call_uninitialised q range blocks date_now name = [].
Proof.
  unfold fetch_one. destruct (q name range) as [logs|]; [|reflexivity].
  induction logs; simpl; auto.
Qed.

Lemma flat_map_nil_fun {A B} (f : A -> list B) (l : list A) :
  (forall a, f a = []) -> flat_map f l = [].
Proof. intros F. induction l; simpl; [reflexivity|]. rewrite F, IHl. reflexivity. Qed.

(** X8. [fetchPastEvents] returns no events when it has no contract, when
    no provider is available (the loop of that branch calls
    [formatEventByType] before its [const] is initialised, and the error of
    each call is caught), and when [getBlockNumber] fails. *)
Theorem fetchPastEvents_empty_cases (date_now : Z * Event -> Z) :
  (forall providerToUse, fetchPastEvents None providerToUse date_now = []) /\
  (forall q, fetchPastEvents (Some q) None date_now = []) /\
  (forall q p, getBlockNumber p = Throw ->
               fetchPastEvents (Some q) (Some p) date_now = []).
Proof.
  split; [reflexivity|]. split.
  - intros q. unfold fetchPastEvents. rewrite flat_map_nil_fun; [reflexivity|].
    intros name. apply fetch_one_uninitialised.
  - intros q p B. unfold fetchPastEvents. rewrite B. reflexivity.
Qed.

Lemma insert_desc_perm (x : ClientEvent) (l : list ClientEvent) :
  Permutation (insert_desc x l) (x :: l).
Proof.
  induction l as [|y l IH]; simpl; [reflexivity|].
  destruct (ce_timestamp y <=? ce_timestamp x); [reflexivity|].
  etransitivity; [apply perm_skip, IH|apply perm_swap].
Qed.

Lemma sort_desc_perm (l : list ClientEvent) : Permutation (sort_desc l) l.
Proof.
  induction l as [|x l IH]; simpl; [reflexivity|].
  etransitivity; [apply insert_desc_perm|apply perm_skip, IH].
Qed.

Lemma insert_desc_sorted (x : ClientEvent) (l : list ClientEvent) :
  Sorted (fun a b => ce_timestamp b <= ce_timestamp a) l ->
  Sorted (fun a b => ce_timestamp b <= ce_timestamp a) (insert_desc x l).
Proof.
  induction 1 as [|y l S IH Hd]; simpl.
  - repeat constructor.
  - destruct (Z.leb_spec (ce_timestamp y) (ce_timestamp x)).
    + constructor; [constructor; assumption|constructor; assumption].
    + constructor; [exact IH|].
      destruct l as [|z l']; simpl; [constructor; lia|].
      destruct (ce_timestamp z <=? ce_timestamp x); constructor; [lia|].
      inversion Hd; assumption.
Qed.

Lemma sort_desc_sorted (l : list ClientEvent) :
  Sorted (fun a b => ce_timestamp b <= ce_timestamp a) (sort_desc l).
Proof.
  induction l as [|x l IH]; simpl; [constructor|]. apply insert_desc_sorted, IH.
Qed.

(** X9. With a block number [currentBlock], [fetchPastEvents] returns the
    events its five queries over blocks [max 0 (currentBlock - 5000)] to
    [currentBlock] produced, each exactly once, most recent timestamp
    first. *)
Theorem fetchPastEvents_sorted_perm (q : QueryFilter) (p : Provider)
    (date_now : Z * Event -> Z) (currentBlock : Z) :
  getBlockNumber p = Normal currentBlock ->
  Sorted (fun a b => ce_timestamp b <= ce_timestamp a)
         (fetchPastEvents (Some q) (Some p) date_now) /\
  Permutation (fetchPastEvents (Some q) (Some p) date_now)
    (flat_map (fetch_one format_call q
                 (Some (Z.max 0 (currentBlock - 5000), currentBlock))
                 (Some (getBlock p)) date_now) event_type_names).
Proof.
  intros B. unfold fetchPastEvents. rewrite B.
  split; [apply sort_desc_sorted|apply sort_desc_perm].
Qed.

Lemma fetchPastEvents_sorted_perm_witness :
  let p := mkProvider (Normal 7000) (fun n => Normal (Some n)) in
  let q : QueryFilter := fun name _ =>
    if String.eqb name "Unlock" then Normal [(2001, UnlockEv 1 2 3 4 5)]
    else if String.eqb name "LockBuy"
    then Normal [(2000, LockBuyEv 1 2 3 4 5 6 7 8 9);
                 (2003, LockBuyEv 1 2 3 4 5 6 7 8 10)]
    else Throw in
  getBlockNumber p = Normal 7000 /\
  Sorted (fun a b => ce_timestamp b <= ce_timestamp a)
         (fetchPastEvents (Some q) (Some p) (fun _ => 0)) /\
  Permutation (fetchPastEvents (Some q) (Some p) (fun _ => 0))
    (flat_map (fetch_one format_call q (Some (Z.max 0 (7000 - 5000), 7000))
                 (Some (getBlock p)) (fun _ => 0)) event_type_names).
Proof.
  intros p q. split; [reflexivity|].
  apply fetchPastEvents_sorted_perm. reflexivity.
Defined.

(** X10. Every event [fetchPastEvents] returns after reading a block number
    comes from a log that the query of the event's own type returned for
    blocks [max 0 (currentBlock - 5000)] to [currentBlock]: its type is one
    of the five names, its fields are those [formatEventByType] copies from
    that log's arguments, and its timestamp is the
    log's block time in milliseconds when that block has a non-zero time,
    else the clock reading. *)
Theorem fetchPastEvents_provenance (q : QueryFilter) (p : Provider)
    (date_now : Z * Event -> Z) (currentBlock : Z) (e : ClientEvent) :
  getBlockNumber p = Normal currentBlock ->
  In e (fetchPastEvents (Some q) (Some p) date_now) ->
  exists logs log,
    In (ce_type e) event_type_names /\
    q (ce_type e) (Some (Z.max 0 (currentBlock - 5000), currentBlock))
    = Normal logs /\
    In log logs /\ ce_args e = client_args (snd log) /\
    ((exists ts, getBlock p (fst log) = Normal (Some ts) /\ ts <> 0 /\
                 ce_timestamp e = ts * 1000) \/
     ((forall ts, getBlock p (fst log) = Normal (Some ts) -> ts = 0) /\
      ce_timestamp e = date_now log)).
Proof.
  intros B I. unfold fetchPastEvents in I. rewrite B in I.
  apply (Permutation_in _ (sort_desc_perm _)), in_flat_map in I
    as (name & Hn & I).
  unfold fetch_one in I.
  destruct (q name _) as [logs|] eqn:Q; [|destruct I].
  apply in_flat_map in I as (log & Hl & I).
  unfold format_call, formatEventByType in I.
  rewrite bool_decide_eq_true_2 in I by (apply list_elem_of_In; exact Hn).
  destruct I as [<-|[]].
  unfold stamp_with_block.
  destruct (getBlock p (fst log)) as [[ts|]|] eqn:G.
  - destruct (Z.eqb_spec ts 0) as [Z0|NZ].
    + exists logs, log. simpl. repeat split; auto.
      right. split; [|reflexivity]. intros ts' E. congruence.
    + exists logs, log. simpl. repeat split; auto. left. eauto.
  - exists logs, log. simpl. repeat split; auto.
    right. split; [|reflexivity]. intros ts' E. congruence.
  - exists logs, log. simpl. repeat split; auto.
    right. split; [|reflexivity]. intros ts' E. congruence.
Qed.

Lemma fetchPastEvents_provenance_witness :
  let p := mkProvider (Normal 7000) (fun n => Normal (Some n)) in
  let q : QueryFilter := fun name _ =>
    if String.eqb name "Unlock" then Normal [(2001, UnlockEv 1 2 3 4 5)]
    else if String.eqb name "LockBuy"
    then Normal [(2000, LockBuyEv 1 2 3 4 5 6 7 8 9);
                 (2003, LockBuyEv 1 2 3 4 5 6 7 8 10)]
    else Throw in
  let e := mkClientEvent "LockBuy" (client_args (LockBuyEv 1 2 3 4 5 6 7 8 10))
              2003000 in
  getBlockNumber p = Normal 7000 /\
  In e (fetchPastEvents (Some q) (Some p) (fun _ => 0)) /\
  exists logs log,
    In (ce_type e) event_type_names /\
    q (ce_type e) (Some (Z.max 0 (7000 - 5000), 7000)) = Normal logs /\
    In log logs /\ ce_args e = client_args (snd log) /\
    ((exists ts, getBlock p (fst log) = Normal (Some ts) /\ ts <> 0 /\
                 ce_timestamp e = ts * 1000) \/
     ((forall ts, getBlock p (fst log) = Normal (Some ts) -> ts = 0) /\
      ce_timestamp e = (fun _ => 0) log)).
Proof.
  intros p q e. split; [reflexivity|].
  assert (I : In e (fetchPastEvents (Some q) (Some p) (fun _ => 0)))
    by (vm_compute; left; reflexivity).
  split; [exact I|].
  apply (fetchPastEvents_provenance q p (fun _ => 0) 7000 e); [reflexivity|exact I].
Defined.

Lemma js_Number_exact (t : Z) : 0 <= t <= 2 ^ 53 -> js_Number t = t.
Proof.
  intros [L H]. unfold js_Number.
  destruct (Z.ltb_spec t 0) as [N|_]; [lia|].
  unfold round_double_pos.
  destruct (Z.ltb_spec t (2 ^ 53)) as [_|G]; [reflexivity|].
  assert (E : t = 2 ^ 53) by lia. subst t. vm_compute. reflexivity.
Qed.

(** X13. The event history reports the timeout of a LockBuy or LockSell
    record unchanged when it is at most 2^53; a larger timeout goes through
    [Number], which rounds it to a double, so a LockBuy timeout of
    2^53 + 1 is reported as 2^53. *)
Theorem event_history_timeout_rounding :
  (forall tk c r h t v a p i, 0 <= t <= 2 ^ 53 ->
     client_args (LockBuyEv tk c r h t v a p i)
     = LockBuyArgs tk c r h t (bigint_toString v) a (bigint_toString p) i) /\
  (forall tk c r h t v a b, 0 <= t <= 2 ^ 53 ->
     client_args (LockSellEv tk c r h t v a b)
     = LockSellArgs tk c r h t (bigint_toString v) a b) /\
  (forall tk c r h v a p i,
     client_args (LockBuyEv tk c r h (2 ^ 53 + 1) v a p i)
     = LockBuyArgs tk c r h (2 ^ 53) (bigint_toString v) a (bigint_toString p) i).
Proof.
  split; [|split].
  - intros tk c r h t v a p i B. simpl. rewrite js_Number_exact by exact B.
    reflexivity.
  - intros tk c r h t v a b B. simpl. rewrite js_Number_exact by exact B.
    reflexivity.
  - intros tk c r h v a p i. simpl.
    replace (js_Number (2 ^ 53 + 1)) with (2 ^ 53) by (vm_compute; reflexivity).
    reflexivity.
Qed.

(** ** Token balance and lockBuy's balance check *)

(** X11. [getTokenBalance] always returns a record; it has no [formatted]
    field exactly when the wallet is not connected, and a record with a
    non-empty symbol always reports a balance that [balanceOf] returned,
    formatted with the reported decimals. *)
Theorem getTokenBalance_outcomes (connected : bool)
    (tokenContract : option TokenCalls) (toString : Z -> string)
    (formatUnits : Z -> Z -> Completion string) :
  let r := getTokenBalance connected tokenContract toString formatUnits in
  (tb_formatted r = None <-> connected = false) /\
  (tb_symbol r <> ""%string ->
   exists tc balance f,
     tokenContract = Some tc /\ tc_balanceOf tc = Normal balance /\
     formatUnits balance (tb_decimals r) = Normal f /\
     tb_balance r = toString balance /\ tb_formatted r = Some f).
Proof.
  intros r. subst r. unfold getTokenBalance.
  destruct connected; simpl; [|split; [split; reflexivity|intros N; contradiction N; reflexivity]].
  destruct tokenContract as [tc|]; simpl;
    [|split; [split; discriminate|intros N; contradiction N; reflexivity]].
  destruct (tc_balanceOf tc) as [balance|] eqn:Bal; simpl;
    [|split; [split; discriminate|intros N; contradiction N; reflexivity]].
  destruct (formatUnits balance _) as [f|] eqn:Fm; simpl;
    [|split; [split; discriminate|intros N; contradiction N; reflexivity]].
  split; [split; discriminate|]. intros _. exists tc, balance, f. auto.
Qed.

(** X12. lockBuy's balance check rejects the call exactly when
    [balanceOf] returned less than [valueWei], or failed with a message
    containing "Insufficient"; any other failure of [balanceOf] is
    swallowed and the call goes on. *)
Theorem lockBuy_balance_check_rejects (toString : Z -> string)
    (balanceOf : CallResult) (valueWei : Z) :
  lockBuy_balance_check toString balanceOf valueWei <> None <->
  match balanceOf with
  | Returned balance => balance < valueWei
  | Failed m => js_includes m "Insufficient" = true
  end.
Proof.
  unfold lockBuy_balance_check. destruct balanceOf as [balance|m].
  - destruct (Z.ltb_spec balance valueWei) as [Lt|Ge].
    + cbn. split; [intros _; exact Lt|discriminate].
    + split; [intros N; contradiction N; reflexivity|lia].
  - destruct (js_includes m "Insufficient"); split; try discriminate; auto.
Qed.
